(** * RapidFuzz C bridge: cached ratio handles and normalized Levenshtein

    A shallow embedding of [Sources/RapidFuzz/rapidfuzz.cpp]: the
    [RapidFuzzCachedRatio] handle with its create / score / destroy
    functions and the stateless [rapidfuzz_levenshtein], over an explicit
    heap with allocation accounting.  Doubles are IEEE-754 binary64 values
    (Rocq's primitive floats); the rapidfuzz library itself is an
    interface ([RapidFuzz]) the development is parametric in. *)

From Stdlib Require Import ZArith NArith Lia Floats Uint63.
From Stdlib Require Strings.Byte.
From stdpp Require Import base option list gmap.

(** * Characters, C strings and [size_t] *)

Abbreviation byte := Byte.byte.

(** The terminator of a C string. *)
Definition NUL : byte := Byte.x00.

Definition SIZE_MAX : N := 2 ^ 64 - 1.

(** Addition on [size_t] wraps around. *)
Definition size_add (a b : N) : N := ((a + b) mod 2 ^ 64)%N.

(** [strlen str]: the number of characters before the first terminator of
    the memory region [str]; [None] when the region holds no terminator
    (the scan leaves the region: undefined behaviour). *)
Fixpoint strlen (str : list byte) : option N :=
  match str with
  | [] => None
  | c :: rest => if Byte.eqb c NUL then Some 0%N else N.succ <$> strlen rest
  end.

(** The characters a C string denotes: those before the first terminator. *)
Fixpoint c_chars (str : list byte) : list byte :=
  match str with
  | [] => []
  | c :: rest => if Byte.eqb c NUL then [] else c :: c_chars rest
  end.

(** How a caller hands a byte sequence over as [const char *]: the bytes
    followed by a terminator. *)
Definition c_str (r : list byte) : list byte := r ++ [NUL].

(** Length of a byte sequence as a [size_t]. *)
Definition nbytes (s : list byte) : N := N.of_nat (length s).

(** [std::string_view(str, len)]: the first [len] characters at [str];
    [None] when they are not all inside the region. *)
Definition string_view_chars (str : list byte) (len : N) : option (list byte) :=
  if (len <=? nbytes str)%N then Some (take (N.to_nat len) str) else None.

(** * The rapidfuzz library, as an interface *)

(** [CachedRatio] stands for [rapidfuzz::fuzz::RATIO_TYPE<std::string_view>]:
    an object built from a view of the first string, whose [ratio] scores a
    second string against it as a percentage.  The object keeps the view, so
    [ratio] sees the viewed characters next to the precomputed part. *)
Class RapidFuzz := {
  CachedRatio : Type;
  CachedRatio_new : list byte -> CachedRatio;
  CachedRatio_ratio : CachedRatio -> list byte -> list byte -> float;
  normalized_levenshtein : list byte -> list byte -> float
}.

(** Adapting a similarity percentage to a distance-like score. *)
Definition adapt (score : float) : float := (1 - score / 100)%float.

(** * The heap *)

Definition addr := positive.

(** A pointer: [None] is [NULL]. *)
Definition ptr := option addr.

(** A [std::string_view] into the heap: a character array and a length. *)
Record string_view := { sv_data : addr; sv_size : N }.

(** * Handles *)

Record RapidFuzzCachedRatio := {
  buffer : ptr;
  buflen : N;
  block : ptr
}.

Definition set_buffer (p : ptr) (c : RapidFuzzCachedRatio) :=
  {| buffer := p; buflen := buflen c; block := block c |}.
Definition set_buflen (n : N) (c : RapidFuzzCachedRatio) :=
  {| buffer := buffer c; buflen := n; block := block c |}.
Definition set_block (p : ptr) (c : RapidFuzzCachedRatio) :=
  {| buffer := buffer c; buflen := buflen c; block := p |}.

(** Cache initialised with null pointers. *)
Definition rapidfuzz_cached_null : RapidFuzzCachedRatio :=
  {| buffer := None; buflen := 0%N; block := None |}.

(** The allocator grants the next [k] requests. *)
Fixpoint granted (k : nat) (answers : list bool) : bool :=
  match k, answers with
  | O, _ => true
  | S _, [] => true
  | S k', g :: rest => g && granted k' rest
  end.

Section Bridge.
Context `{RF : RapidFuzz}.

(** What an allocation holds.  [Chars] is an array obtained from [malloc]
    ([None] marks a character not yet written).  [Object] is storage
    obtained from [operator new] holding a [CachedRatio]: whether the
    object in it is still constructed, the view it keeps and its
    precomputed part. *)
Inductive cell :=
| Chars (chars : list (option byte))
| Object (constructed : bool) (view : string_view) (state : CachedRatio).

(** The program state: the live allocations, and the allocator's answers
    to the coming requests ([true]: memory is granted; a request past the
    end of the list is granted). *)
Record world := {
  heap : gmap addr cell;
  allocator : list bool
}.

Definition with_heap (h : gmap addr cell) (w : world) : world :=
  {| heap := h; allocator := allocator w |}.

(** How a call ends. *)
Inductive outcome (A : Type) :=
| Returns (a : A) (w : world)
| Throws (w : world)
| Undefined.
Global Arguments Returns {A} a w.
Global Arguments Throws {A} w.
Global Arguments Undefined {A}.

Definition exec (A : Type) : Type := world -> outcome A.

Definition ret {A} (a : A) : exec A := fun w => Returns a w.

Definition bind {A B} (c : exec A) (k : A -> exec B) : exec B := fun w =>
  match c w with
  | Returns a w' => k a w'
  | Throws w' => Throws w'
  | Undefined => Undefined
  end.

Definition undefined {A} : exec A := fun _ => Undefined.

(** The allocator's answer to the next request. *)
Definition next_grant (w : world) : bool * world :=
  match allocator w with
  | [] => (true, w)
  | g :: rest => (g, {| heap := heap w; allocator := rest |})
  end.

(** The world once the next request has been answered. *)
Definition answered (w : world) : world :=
  {| heap := heap w; allocator := drop 1 (allocator w) |}.

(** [malloc(n)]: [NULL] when memory is refused, else a fresh array of [n]
    unwritten characters. *)
Definition malloc (n : N) : exec ptr := fun w =>
  let '(granted, w) := next_grant w in
  if granted then
    let a := fresh (dom (heap w)) in
    Returns (Some a)
      (with_heap (<[a := Chars (replicate (N.to_nat n) None)]> (heap w)) w)
  else Returns None w.

(** [free(p)] for a non-null [p]. *)
Definition free (p : addr) : exec unit := fun w =>
  match heap w !! p with
  | Some (Chars _) => Returns tt (with_heap (delete p (heap w)) w)
  | _ => Undefined
  end.

(** [memcpy(dst, src, n)] from a region outside the heap. *)
Definition memcpy (dst : addr) (src : list byte) (n : N) : exec unit := fun w =>
  match heap w !! dst with
  | Some (Chars old) =>
      if ((n <=? N.of_nat (length old)) && (n <=? nbytes src))%N then
        Returns tt
          (with_heap
             (<[dst := Chars ((Some <$> take (N.to_nat n) src)
                                ++ drop (N.to_nat n) old)]> (heap w)) w)
      else Undefined
  | _ => Undefined
  end.

(** [dst[i] = c]. *)
Definition store (dst : addr) (i : N) (c : byte) : exec unit := fun w =>
  match heap w !! dst with
  | Some (Chars old) =>
      if (i <? N.of_nat (length old))%N then
        Returns tt
          (with_heap (<[dst := Chars (<[N.to_nat i := Some c]> old)]> (heap w)) w)
      else Undefined
  | _ => Undefined
  end.

(** The characters under a view, when it lies inside a live array and
    all of them have been written. *)
Definition read_view (v : string_view) (w : world) : option (list byte) :=
  match heap w !! sv_data v with
  | Some (Chars chars) =>
      if (sv_size v <=? N.of_nat (length chars))%N
      then mapM id (take (N.to_nat (sv_size v)) chars)
      else None
  | _ => None
  end.

(** [new CachedRatio(view)]: throws [std::bad_alloc] when memory is
    refused; else constructs the object in fresh storage. *)
Definition new_CachedRatio (v : string_view) : exec addr := fun w =>
  let '(granted, w) := next_grant w in
  if granted then
    match read_view v w with
    | Some s1 =>
        let a := fresh (dom (heap w)) in
        Returns a
          (with_heap (<[a := Object true v (CachedRatio_new s1)]> (heap w)) w)
    | None => Undefined
    end
  else Throws w.

(** [block->~CachedRatio()]: ends the object's lifetime; its storage
    stays allocated. *)
Definition destroy_CachedRatio (a : addr) : exec unit := fun w =>
  match heap w !! a with
  | Some (Object true v st) =>
      Returns tt (with_heap (<[a := Object false v st]> (heap w)) w)
  | _ => Undefined
  end.

(** [block->ratio(s2)]. *)
Definition call_ratio (a : addr) (s2 : list byte) : exec float := fun w =>
  match heap w !! a with
  | Some (Object true v st) =>
      match read_view v w with
      | Some s1 => Returns (CachedRatio_ratio st s1 s2) w
      | None => Undefined
      end
  | _ => Undefined
  end.

(** ** The exported functions *)

Definition rapidfuzz_cached_init (str : list byte) : exec RapidFuzzCachedRatio :=
  let cache := rapidfuzz_cached_null in
  match strlen str with
  | None => undefined
  | Some len =>
      let cache := set_buflen len cache in
      bind (malloc (size_add (buflen cache) 1)) (fun p =>
      let cache := set_buffer p cache in
      match buffer cache with
      | None => ret rapidfuzz_cached_null
      | Some b =>
          bind (memcpy b str (buflen cache)) (fun _ =>
          bind (store b (buflen cache) NUL) (fun _ =>
          bind (new_CachedRatio {| sv_data := b; sv_size := buflen cache |})
            (fun k => ret (set_block (Some k) cache))))
      end)
  end.

Definition rapidfuzz_cached_ratio (cached : RapidFuzzCachedRatio)
    (str : list byte) (len : N) : exec float :=
  match buffer cached, block cached with
  | Some _, Some k =>
      match string_view_chars str len with
      | Some s2 => bind (call_ratio k s2) (fun score => ret (adapt score))
      | None => undefined
      end
  | _, _ => ret 1%float
  end.

Definition rapidfuzz_cached_deinit (cached : RapidFuzzCachedRatio)
    : exec RapidFuzzCachedRatio :=
  bind (match block cached with
        | Some k =>
            bind (destroy_CachedRatio k) (fun _ => ret (set_block None cached))
        | None => ret cached
        end) (fun cached =>
  match buffer cached with
  | Some b =>
      bind (free b) (fun _ => ret (set_buflen 0%N (set_buffer None cached)))
  | None => ret cached
  end).

Definition rapidfuzz_levenshtein (s1 : list byte) (len1 : N)
    (s2 : list byte) (len2 : N) : option float :=
  match string_view_chars s1 len1, string_view_chars s2 len2 with
  | Some a, Some b => Some (adapt (normalized_levenshtein a b))
  | _, _ => None
  end.

(** ** Using the functions together *)

(** Scoring candidates one after the other, each passed with its length. *)
Fixpoint score_all (cached : RapidFuzzCachedRatio) (cands : list (list byte))
    : exec (list float) :=
  match cands with
  | [] => ret []
  | c :: rest =>
      bind (rapidfuzz_cached_ratio cached c (nbytes c)) (fun score =>
      bind (score_all cached rest) (fun scores => ret (score :: scores)))
  end.

(** One life of a handle: create, score the candidates, destroy. *)
Definition cycle (str : list byte) (cands : list (list byte))
    : exec RapidFuzzCachedRatio :=
  bind (rapidfuzz_cached_init str) (fun cached =>
  bind (score_all cached cands) (fun _ => rapidfuzz_cached_deinit cached)).

Fixpoint cycles (n : nat) (str : list byte) (cands : list (list byte))
    : exec unit :=
  match n with
  | O => ret tt
  | S n' => bind (cycle str cands) (fun _ => cycles n' str cands)
  end.

(** ** Handle states *)

(** The empty state: no buffer and no precomputed block. *)
Definition is_empty (h : RapidFuzzCachedRatio) : Prop :=
  buffer h = None /\ block h = None.

(** The ready state for reference characters [r]: the buffer is a
    terminated copy of [r] and the block is a constructed [CachedRatio]
    built from a view of the first [nbytes r] characters of that buffer. *)
Definition ready_for (w : world) (h : RapidFuzzCachedRatio) (r : list byte)
    : Prop :=
  exists b k,
    h = {| buffer := Some b; buflen := nbytes r; block := Some k |} /\
    heap w !! b = Some (Chars (Some <$> c_str r)) /\
    heap w !! k =
      Some (Object true {| sv_data := b; sv_size := nbytes r |}
              (CachedRatio_new r)).

(** A handle whose non-null pointers are live in [w] (the block a
    constructed object, the buffer an array), with length 0 when it has
    no buffer. *)
Definition live_handle (w : world) (h : RapidFuzzCachedRatio) : Prop :=
  (forall k, block h = Some k ->
     exists v st, heap w !! k = Some (Object true v st)) /\
  (forall b, buffer h = Some b ->
     exists chars, heap w !! b = Some (Chars chars)) /\
  (buffer h = None -> buflen h = 0%N).

(** Handles the exported functions hand out: the null handle, results of
    [rapidfuzz_cached_init], and handles [rapidfuzz_cached_deinit] has
    been applied to. *)
Inductive produced : RapidFuzzCachedRatio -> Prop :=
| produced_null : produced rapidfuzz_cached_null
| produced_init str w h w' :
    rapidfuzz_cached_init str w = Returns h w' -> produced h
| produced_deinit h w h' w' :
    produced h -> rapidfuzz_cached_deinit h w = Returns h' w' -> produced h'.

(** The number of allocations that have not been given back. *)
Definition allocations (w : world) : nat := size (heap w).

End Bridge.

(** * An executable instance of the library interface

    Textbook edit distances, used to run the bridge on concrete inputs:
    the Levenshtein distance scaled by the longer length, and the
    insertion/deletion distance scaled by the total length.  The theorems
    below hold for every instance of [RapidFuzz]. *)

Fixpoint levenshtein (a b : list byte) {struct a} : nat :=
  match a with
  | [] => length b
  | x :: a' =>
      (fix row (b : list byte) : nat :=
         match b with
         | [] => length a
         | y :: b' =>
             Nat.min (Nat.min (S (levenshtein a' b)) (S (row b')))
                     ((if Byte.eqb x y then 0 else 1) + levenshtein a' b')
         end) b
  end.

Fixpoint indel (a b : list byte) {struct a} : nat :=
  match a with
  | [] => length b
  | x :: a' =>
      (fix row (b : list byte) : nat :=
         match b with
         | [] => length a
         | y :: b' =>
             if Byte.eqb x y then indel a' b'
             else Nat.min (S (indel a' b)) (S (row b'))
         end) b
  end.

Definition float_of_nat (n : nat) : float :=
  PrimFloat.of_uint63 (Uint63.of_Z (Z.of_nat n)).

(** [100 - 100 * dist / scale], and 100 when there is nothing to compare. *)
Definition percentage (dist scale : nat) : float :=
  match scale with
  | O => 100%float
  | _ => (100 - 100 * float_of_nat dist / float_of_nat scale)%float
  end.

#[export] Instance textbook : RapidFuzz := {|
  CachedRatio := list byte;
  CachedRatio_new s1 := s1;
  CachedRatio_ratio _ s1 s2 := percentage (indel s1 s2) (length s1 + length s2);
  normalized_levenshtein a b :=
    percentage (levenshtein a b) (Nat.max (length a) (length b))
|}.

(** A world with nothing allocated and an allocator that grants every
    request. *)
Definition empty_world : world (RF := textbook) :=
  {| heap := ∅; allocator := [] |}.

(** The bytes of "kitten" and "sitting". *)
Definition kitten : list byte :=
  [Byte.x6b; Byte.x69; Byte.x74; Byte.x74; Byte.x65; Byte.x6e].
Definition sitting : list byte :=
  [Byte.x73; Byte.x69; Byte.x74; Byte.x74; Byte.x69; Byte.x6e; Byte.x67].

(** The handle and the world [rapidfuzz_cached_init] produces for "kitten"
    in the empty world. *)
Definition kitten_handle : RapidFuzzCachedRatio :=
  {| buffer := Some 1%positive; buflen := 6%N; block := Some 2%positive |}.

Definition kitten_world : world (RF := textbook) :=
  {| heap :=
       <[2%positive := Object true {| sv_data := 1%positive; sv_size := 6%N |}
                         kitten]>
         (<[1%positive := Chars (Some <$> c_str kitten)]> ∅);
     allocator := [] |}.

(** A handle with neither pointer set that still carries a length. *)
Definition stray_handle : RapidFuzzCachedRatio :=
  {| buffer := None; buflen := 5%N; block := None |}.

(** A world where the first request is granted and the second refused. *)
Definition tight_world : world (RF := textbook) :=
  {| heap := ∅; allocator := [true; false] |}.

(** A world where the first request is refused. *)
Definition exhausted_world : world (RF := textbook) :=
  {| heap := ∅; allocator := [false] |}.

(** The bytes of a caller's string with a zero byte inside: 'a', 0, 'b'. *)
Definition a_NUL_b : list byte := [Byte.x61; Byte.x00; Byte.x62].

(** * Binary64 values between zero and one *)

Definition SF100 : spec_float := S754_finite false 7036874417766400 (-46).
Definition SF1 : spec_float := S754_finite false 4503599627370496 (-52).

(** Shape of a binary64 value that is a zero or a positive magnitude of at
    most 1: mantissa [m] and exponent [e <= 0] with [m <= 2 ^ (- e)]. *)
Definition unit_shaped (x : spec_float) : Prop :=
  match x with
  | S754_zero _ => True
  | S754_finite false m e => (e <= 0)%Z /\ (Z.pos m <= 2 ^ (- e))%Z
  | _ => False
  end.

(** * Facts about binary64 rounding

    [adapt p] stays between 0 and 1 for every percentage [p] between 0 and
    100, by the specification of binary64 division and subtraction. *)

Section Binary64.
Local Open Scope Z_scope.

Lemma digits2_pos_size p : digits2_pos p = Pos.size p.
Proof. induction p; simpl; congruence. Qed.

Lemma Zdigits2_bounds m :
  0 < m -> 2 ^ (Zdigits2 m - 1) <= m < 2 ^ Zdigits2 m.
Proof.
  destruct m as [|p|p]; try lia. intros _. simpl Zdigits2.
  rewrite digits2_pos_size. split.
  - pose proof (Pos.size_le p) as H.
    apply (Z.mul_le_mono_pos_l _ _ 2); [lia|].
    replace (2 * 2 ^ (Z.pos (Pos.size p) - 1)) with (2 ^ Z.pos (Pos.size p)).
    + rewrite <- Pos2Z.inj_pow. lia.
    + replace (Z.pos (Pos.size p)) with (Z.succ (Z.pos (Pos.size p) - 1)) at 1 by lia.
      rewrite Z.pow_succ_r; lia.
  - pose proof (Pos.size_gt p) as H. rewrite <- Pos2Z.inj_pow. lia.
Qed.

Lemma Zdigits2_nonneg m : 0 <= m -> 0 <= Zdigits2 m.
Proof. destruct m; simpl; lia. Qed.

Lemma shr_1_half mrs : 0 <= shr_m mrs -> shr_m (shr_1 mrs) = shr_m mrs / 2.
Proof.
  intros Hm. rewrite <- Z.div2_div.
  destruct mrs as [m r s]; simpl in *.
  destruct m as [|[p|p|]|p]; try reflexivity; lia.
Qed.

Lemma iter_shr_1_div p : forall mrs,
  0 <= shr_m mrs -> shr_m (SpecFloat.iter_pos shr_1 p mrs) = shr_m mrs / 2 ^ Z.pos p.
Proof.
  assert (Hnn : forall q mrs, 0 <= shr_m mrs -> 0 <= shr_m mrs / 2 ^ Z.pos q).
  { intros. apply Z.div_pos; [assumption|]. apply Z.pow_pos_nonneg; lia. }
  induction p as [p IH|p IH|]; intros mrs Hm; simpl.
  - assert (H1 : 0 <= shr_m (shr_1 mrs)).
    { rewrite shr_1_half by assumption. apply Z.div_pos; lia. }
    rewrite IH; [rewrite IH by assumption|rewrite IH by assumption; now apply Hnn].
    rewrite shr_1_half by assumption.
    rewrite !Z.div_div by (try apply Z.pow_pos_nonneg; lia).
    f_equal. rewrite (Pos2Z.inj_xI p).
    replace (2 * Z.pos p + 1) with (1 + Z.pos p + Z.pos p) by lia.
    rewrite !Z.pow_add_r by lia. lia.
  - rewrite IH; [rewrite IH by assumption|rewrite IH by assumption; now apply Hnn].
    rewrite !Z.div_div by (try apply Z.pow_pos_nonneg; lia).
    f_equal. rewrite (Pos2Z.inj_xO p).
    replace (2 * Z.pos p) with (Z.pos p + Z.pos p) by lia.
    rewrite !Z.pow_add_r by lia. lia.
  - now rewrite shr_1_half.
Qed.

Lemma shr_m_of_loc m l : shr_m (shr_record_of_loc m l) = m.
Proof. destruct l as [|[]]; reflexivity. Qed.

Lemma round_nearest_even_step m l :
  m <= round_nearest_even m l <= m + 1.
Proof.
  destruct l as [|[]]; simpl; try lia. destruct (Z.even m); lia.
Qed.

(** One renormalising shift keeps a mantissa below [2 ^ (- e)]. *)
Lemma shr_fexp_below m e l mrs e' :
  0 <= m -> e <= 0 -> m <= 2 ^ (- e) ->
  shr_fexp prec emax m e l = (mrs, e') ->
  e' <= 0 /\ 0 <= shr_m mrs <= 2 ^ (- e') /\
  (m < 2 ^ (- e) -> shr_m mrs < 2 ^ (- e')).
Proof.
  intros Hm He Hle. unfold shr_fexp, shr.
  assert (Hfe : fexp prec emax (Zdigits2 m + e) <= 0).
  { unfold fexp, FloatOps.prec, FloatOps.emax, SpecFloat.emin.
    destruct (Z.eq_dec m 0) as [->|Hnz]; [simpl; lia|].
    destruct (Zdigits2_bounds m) as [Hlo _]; [lia|].
    assert (Zdigits2 m - 1 <= - e).
    { apply (Z.pow_le_mono_r_iff 2); lia. }
    lia. }
  destruct (fexp prec emax (Zdigits2 m + e) - e) as [|n|n] eqn:Hn;
    intros [= <- <-]; rewrite ?shr_m_of_loc.
  - repeat split; lia.
  - rewrite iter_shr_1_div by (rewrite shr_m_of_loc; lia).
    rewrite shr_m_of_loc.
    assert (Hp : 0 < 2 ^ Z.pos n) by (apply Z.pow_pos_nonneg; lia).
    assert (Hsplit : 2 ^ (- e) = 2 ^ Z.pos n * 2 ^ (- (e + Z.pos n))).
    { rewrite <- Z.pow_add_r by lia. f_equal. lia. }
    split; [lia|]. split; [split|].
    + apply Z.div_pos; lia.
    + apply Z.div_le_upper_bound; [lia|]. now rewrite <- Hsplit.
    + intros Hlt. apply Z.div_lt_upper_bound; [lia|]. now rewrite <- Hsplit.
  - repeat split; lia.
Qed.

(** Rounding a magnitude strictly below 1 yields at most 1. *)
Lemma binary_round_aux_below_one mz ez lz :
  0 <= mz -> ez <= 0 -> mz < 2 ^ (- ez) ->
  unit_shaped (binary_round_aux prec emax false mz ez lz).
Proof.
  intros Hm He Hlt. unfold binary_round_aux.
  destruct (shr_fexp prec emax mz ez lz) as [mrs1 e1] eqn:H1.
  destruct (shr_fexp_below _ _ _ _ _ Hm He (Z.lt_le_incl _ _ Hlt) H1) as (He1 & [Hm1 _] & Hs1).
  specialize (Hs1 Hlt).
  pose proof (round_nearest_even_step (shr_m mrs1) (loc_of_shr_record mrs1)) as Hr.
  set (m2 := round_nearest_even (shr_m mrs1) (loc_of_shr_record mrs1)) in *.
  destruct (shr_fexp prec emax m2 e1 loc_Exact) as [mrs2 e2] eqn:H2.
  assert (Hm2 : 0 <= m2 <= 2 ^ (- e1)) by lia.
  destruct (shr_fexp_below _ _ _ _ _ (proj1 Hm2) He1 (proj2 Hm2) H2) as (He2 & [Hm3 Hle3] & _).
  destruct (shr_m mrs2) as [|p|p] eqn:Hp; simpl; try lia.
  replace (e2 <=? emax - prec) with true; [simpl; lia|].
  symmetry. apply Z.leb_le. unfold FloatOps.prec, FloatOps.emax. lia.
Qed.

Lemma bounded_canonical m e :
  bounded prec emax m e = true ->
  Z.max (Zdigits2 (Z.pos m) + e - 53) (-1074) = e.
Proof.
  unfold bounded, canonical_mantissa, fexp, SpecFloat.emin, FloatOps.prec, FloatOps.emax.
  intros [H _]%andb_true_iff. apply Z.eqb_eq in H. exact H.
Qed.

Lemma pow2_le_inv a b : 0 <= b -> 2 ^ a <= 2 ^ b -> a <= b.
Proof.
  intros Hb H. destruct (Z.le_gt_cases a b) as [|Hgt]; [assumption|exfalso].
  assert (2 ^ b < 2 ^ a) by (apply Z.pow_lt_mono_r; lia). lia.
Qed.

Lemma pow2_lt_inv a b : 0 <= b -> 2 ^ a < 2 ^ b -> a < b.
Proof.
  intros Hb H. destruct (Z.lt_ge_cases a b) as [|Hge]; [assumption|exfalso].
  assert (2 ^ b <= 2 ^ a) by (apply Z.pow_le_mono_r; lia). lia.
Qed.

Lemma pow2_52 : 2 ^ 52 = Z.pos 4503599627370496.
Proof. reflexivity. Qed.

Lemma compare_cont_le (m n : positive) :
  Z.pos m <= Z.pos n -> Pos.compare_cont Eq m n <> Gt.
Proof.
  intros H. change (Pos.compare_cont Eq m n) with (Pos.compare m n).
  rewrite Pos.compare_gt_iff. intros Hc. apply Pos2Z.pos_lt_pos in Hc. lia.
Qed.

(** A canonical mantissa bounded by [2 ^ (- e)] has exponent at most -52. *)
Lemma unit_exponent m e :
  bounded prec emax m e = true -> e <= 0 -> Z.pos m <= 2 ^ (- e) -> e <= -52.
Proof.
  intros Hb He Hm.
  pose proof (bounded_canonical _ _ Hb) as Hc.
  destruct (Zdigits2_bounds (Z.pos m)) as [Hlo _]; [lia|].
  destruct (Z.le_gt_cases e (-52)) as [|Hgt]; [assumption|exfalso].
  assert (Hd : Zdigits2 (Z.pos m) = 53) by lia.
  rewrite Hd in Hlo.
  assert (53 - 1 <= - e) by (apply pow2_le_inv; [lia|]; lia). lia.
Qed.

Lemma leb_one_finite m e :
  e <= -52 -> (e = -52 -> Z.pos m <= 2 ^ 52) ->
  SFleb (S754_finite false m e) SF1 = true.
Proof.
  intros He Hm. unfold SFleb, SFcompare, SF1.
  destruct (Z.compare_spec e (-52)) as [Heq|_|Hgt]; try reflexivity; try lia.
  specialize (Hm Heq). rewrite pow2_52 in Hm.
  apply compare_cont_le in Hm.
  destruct (Pos.compare_cont Eq m 4503599627370496); congruence.
Qed.

(** A canonical value of the unit shape compares below 1 and above +0. *)
Lemma unit_shaped_leb x :
  valid_binary x = true -> unit_shaped x ->
  SFleb (S754_zero false) x = true /\ SFleb x SF1 = true.
Proof.
  destruct x as [[]|[]| |[] m e]; unfold unit_shaped, SpecFloat.valid_binary;
    try tauto.
  intros Hb [He Hm]. split; [reflexivity|].
  pose proof (unit_exponent _ _ Hb He Hm) as He52.
  apply leb_one_finite; [assumption|].
  intros ->. exact Hm.
Qed.

(** Dividing a canonical positive value by a strictly larger normal one
    gives a quotient of the unit shape. *)
Lemma SFdiv_below_unit mx ex my ey :
  bounded prec emax mx ex = true ->
  Zdigits2 (Z.pos my) = 53 ->
  ex <= ey -> (ex = ey -> Z.pos mx < Z.pos my) ->
  unit_shaped (SF64div (S754_finite false mx ex) (S754_finite false my ey)).
Proof.
  intros Hb Hdy Hex Hmx.
  pose proof (bounded_canonical _ _ Hb) as Hc.
  destruct (Zdigits2_bounds (Z.pos mx)) as [_ Hhi]; [lia|].
  destruct (Zdigits2_bounds (Z.pos my)) as [Hylo _]; [lia|].
  rewrite Hdy in Hylo.
  assert (Hmx53 : Z.pos mx < 2 ^ 53).
  { eapply Z.lt_le_trans; [exact Hhi|]. apply Z.pow_le_mono_r; lia. }
  assert (H53 : 2 ^ 53 = 2 * 2 ^ (53 - 1)).
  { rewrite <- Z.pow_succ_r by lia. f_equal. }
  unfold SF64div, SFdiv, SFdiv_core_binary. rewrite Hdy.
  set (e' := Z.min _ _).
  assert (He' : e' <= ex - ey) by (subst e'; lia).
  set (s := ex - ey - e').
  assert (Hs : 0 <= s) by (subst s; lia).
  set (m' := match s with 0 => _ | Z.pos _ => _ | Z.neg _ => _ end).
  assert (Hm' : m' = Z.pos mx * 2 ^ s).
  { subst m'. destruct s as [|n|n] eqn:Hn; [rewrite Z.pow_0_r; lia| |lia].
    rewrite Z.shiftl_mul_pow2; lia. }
  destruct (Z.div_eucl m' (Z.pos my)) as [q r] eqn:Hdiv.
  assert (Hq : q = m' / Z.pos my) by (unfold Z.div; now rewrite Hdiv).
  change (xorb false false) with false.
  assert (Hpow : 0 < 2 ^ s) by (apply Z.pow_pos_nonneg; lia).
  apply binary_round_aux_below_one.
  - rewrite Hq, Hm'. apply Z.div_pos; lia.
  - lia.
  - rewrite Hq. apply Z.div_lt_upper_bound; [lia|].
    set (t := ey - ex).
    assert (Hsplit : 2 ^ (- e') = 2 ^ s * 2 ^ t).
    { rewrite <- Z.pow_add_r by (subst t; lia). f_equal. subst s t. lia. }
    rewrite Hm', Hsplit.
    assert (Ht : Z.pos mx < Z.pos my * 2 ^ t).
    { destruct (Z.eq_dec ex ey) as [Heq|Hne].
      - subst t. rewrite Heq, Z.sub_diag, Z.pow_0_r. specialize (Hmx Heq). lia.
      - assert (2 ^ 1 <= 2 ^ t) by (apply Z.pow_le_mono_r; subst t; lia).
        rewrite Z.pow_1_r in *. nia. }
    nia.
Qed.

Lemma shl_align_spec mx ex ez mz ez' :
  shl_align mx ex ez = (mz, ez') ->
  ez' <= ex /\ ez' = Z.min ex ez /\ Z.pos mz = Z.pos mx * 2 ^ (ex - ez').
Proof.
  unfold shl_align. destruct (ez - ex) as [|d|d] eqn:Hd; intros [= <- <-].
  - rewrite Z.sub_diag. simpl. lia.
  - rewrite Z.sub_diag. simpl. lia.
  - split; [lia|]. split; [lia|].
    change (Pos.iter xO mx d) with (shift_pos d mx).
    rewrite shift_pos_correct, Zpower_pos_nat, Zpower_nat_Z, positive_nat_Z.
    replace (ex - ez) with (Z.pos d) by lia. lia.
Qed.

Lemma binary_round_below_one m e :
  e <= 0 -> Z.pos m < 2 ^ (- e) ->
  unit_shaped (binary_round prec emax false m e).
Proof.
  intros He Hm. unfold binary_round.
  destruct (shl_align m e _) as [mz ez] eqn:Hal.
  apply shl_align_spec in Hal as (Hle & _ & Hmz).
  apply binary_round_aux_below_one; [lia|lia|].
  rewrite Hmz. replace (- ez) with (- e + (e - ez)) by lia.
  rewrite Z.pow_add_r by lia.
  apply Z.mul_lt_mono_pos_r; [apply Z.pow_pos_nonneg; lia|assumption].
Qed.

Lemma SFsub_pow2_unit m1 m e :
  Z.pos m1 = 2 ^ 52 -> e <= -52 -> Z.pos m <= 2 ^ (- e) ->
  unit_shaped (SF64sub (S754_finite false m1 (-52)) (S754_finite false m e)).
Proof.
  intros Hm1 He Hm.
  unfold SF64sub, SFsub, cond_Zopp.
  replace (Z.min (-52) e) with e by lia.
  destruct (shl_align m1 (-52) e) as [a ea] eqn:Ha.
  destruct (shl_align m e e) as [b eb] eqn:Hb.
  apply shl_align_spec in Ha as (_ & Hea & Hva).
  apply shl_align_spec in Hb as (_ & Heb & Hvb).
  subst ea eb. rewrite Z.min_id in *.
  replace (Z.min (-52) e) with e in * by lia.
  rewrite Z.sub_diag, Z.pow_0_r in Hvb.
  assert (Hone : Z.pos a = 2 ^ (- e)).
  { rewrite Hva, Hm1, <- Z.pow_add_r by lia. f_equal. lia. }
  unfold fst, binary_normalize.
  destruct (Z.pos a - Z.pos b) as [|d|d] eqn:Hd.
  - exact I.
  - apply binary_round_below_one; lia.
  - lia.
Qed.

Lemma SFsub_1_unit y :
  valid_binary y = true -> unit_shaped y ->
  unit_shaped (SF64sub SF1 y).
Proof.
  destruct y as [[]|[]| |[] m e]; unfold unit_shaped at 1, SpecFloat.valid_binary;
    try tauto.
  - intros _ _. vm_compute. split; discriminate.
  - intros _ _. vm_compute. split; discriminate.
  - intros Hb [He Hm].
    pose proof (unit_exponent _ _ Hb He Hm) as He52.
    apply SFsub_pow2_unit; [symmetry; exact pow2_52|assumption|assumption].
Qed.

Local Open Scope float_scope.

(** The adapted score [1 - p / 100] of a percentage lies between 0 and 1. *)
Theorem adapted_percentage_unit (p : float) :
  (0 <=? p) = true -> (p <=? 100) = true ->
  (0 <=? 1 - p / 100) = true /\ (1 - p / 100 <=? 1) = true.
Proof.
  rewrite !FloatAxioms.leb_spec.
  pose proof (FloatAxioms.div_spec p 100) as Hdiv.
  pose proof (FloatAxioms.sub_spec 1 (p / 100)) as Hsub.
  change (Prim2SF 0) with (S754_zero false) in *.
  change (Prim2SF 1) with SF1 in *. change (Prim2SF 100) with SF100 in *.
  intros H0 H100.
  assert (Hq : unit_shaped (Prim2SF (p / 100))).
  { rewrite Hdiv. clear Hdiv Hsub.
    pose proof (Prim2SF_valid p) as Hv.
    destruct (Prim2SF p) as [[]|[]| |[] mx ex] eqn:Hp; try discriminate; try exact I.
    unfold SFleb, SFcompare, SF100 in H100.
    destruct (Z.compare_spec ex (-46)) as [->|Hlt|Hgt]; try discriminate.
    - pose proof (Pos.compare_spec mx 7036874417766400) as Hs.
      unfold Pos.compare in Hs.
      destruct Hs as [->|Hlt|Hgt]; try discriminate.
      + vm_compute. split; discriminate.
      + apply SFdiv_below_unit.
        * exact Hv.
        * vm_compute; reflexivity.
        * apply Z.le_refl.
        * intros _. now apply Pos2Z.pos_lt_pos.
    - apply SFdiv_below_unit.
      + exact Hv.
      + vm_compute; reflexivity.
      + now apply Z.lt_le_incl.
      + intros ->. now apply Z.lt_irrefl in Hlt. }
  assert (Hr : unit_shaped (Prim2SF (1 - p / 100))).
  { rewrite Hsub. apply SFsub_1_unit; [apply Prim2SF_valid|exact Hq]. }
  exact (unit_shaped_leb _ (Prim2SF_valid _) Hr).
Qed.

End Binary64.

(** * Facts about C strings *)

Lemma byte_eqb_eq (a b : byte) : Byte.eqb a b = true <-> a = b.
Proof.
  split; [apply Byte.byte_dec_bl|apply Byte.byte_dec_lb].
Qed.

Lemma strlen_spec str n :
  strlen str = Some n ->
  n = nbytes (c_chars str) /\ take (N.to_nat n) str = c_chars str /\
  (n < nbytes str)%N /\ str !! N.to_nat n = Some NUL.
Proof.
  revert n. induction str as [|c rest IH]; intros n; simpl; [discriminate|].
  destruct (Byte.eqb c NUL) eqn:Hc.
  - intros [= <-]. apply byte_eqb_eq in Hc as ->.
    unfold nbytes; simpl. repeat split; lia.
  - destruct (strlen rest) as [m|] eqn:Hm; [|discriminate].
    intros [= <-]. destruct (IH m eq_refl) as (-> & Htake & Hlt & Hnul).
    unfold nbytes in *; simpl length.
    rewrite <- Nat2N.inj_succ, !Nat2N.id in *. simpl.
    rewrite Htake. repeat split; [lia|assumption].
Qed.

Lemma c_chars_nul_free r : Forall (fun c => c <> NUL) r -> c_chars r = r.
Proof.
  induction 1 as [|c r Hc _ IH]; simpl; [reflexivity|].
  destruct (Byte.eqb c NUL) eqn:E; [apply byte_eqb_eq in E; contradiction|].
  now rewrite IH.
Qed.

Lemma c_chars_app_NUL r rest : c_chars (r ++ NUL :: rest) = c_chars r.
Proof.
  induction r as [|c r IH]; simpl; [reflexivity|].
  destruct (Byte.eqb c NUL); [reflexivity|now rewrite IH].
Qed.

(** A terminated region always has a length: that of its C string. *)
Lemma strlen_app_NUL r rest :
  strlen (r ++ NUL :: rest) = Some (nbytes (c_chars r)).
Proof.
  induction r as [|c r IH]; simpl; [reflexivity|].
  destruct (Byte.eqb c NUL); [reflexivity|].
  rewrite IH. unfold nbytes. simpl. now rewrite Nat2N.inj_succ.
Qed.

Lemma c_chars_length_le r : length (c_chars r) <= length r.
Proof.
  induction r as [|c r IH]; simpl; [lia|].
  destruct (Byte.eqb c NUL); simpl; lia.
Qed.

Lemma string_view_chars_whole s : string_view_chars s (nbytes s) = Some s.
Proof.
  unfold string_view_chars. rewrite N.leb_refl. unfold nbytes.
  now rewrite Nat2N.id, firstn_all.
Qed.

Lemma size_add_1 n : (n < SIZE_MAX)%N -> size_add n 1 = (n + 1)%N.
Proof.
  unfold size_add, SIZE_MAX. intros H. apply N.mod_small. lia.
Qed.

(** * Facts about the heap operations *)

Section BridgeFacts.
Context `{RF : RapidFuzz}.
Implicit Types (w : world) (h : RapidFuzzCachedRatio).

(** Project the fields of handle and world updates. *)
Local Ltac fields :=
  cbn [buffer block buflen set_block set_buffer set_buflen
       heap allocator with_heap answered].

Lemma bind_returns {A B} (c : exec A) (k : A -> exec B) w a w' :
  c w = Returns a w' -> bind c k w = k a w'.
Proof. unfold bind. now intros ->. Qed.

Lemma granted_cons k w g rest :
  allocator w = g :: rest -> granted (S k) (allocator w) = true ->
  g = true /\ granted k rest = true.
Proof. intros ->. simpl. now intros [? ?]%andb_true_iff. Qed.

Lemma next_grant_granted w :
  granted 1 (allocator w) = true -> next_grant w = (true, answered w).
Proof.
  unfold next_grant, answered. destruct w as [hp [|g rest]]; simpl.
  - reflexivity.
  - rewrite andb_true_r. now intros ->.
Qed.

Lemma next_grant_refused w rest :
  allocator w = false :: rest ->
  next_grant w = (false, {| heap := heap w; allocator := rest |}).
Proof. unfold next_grant. now intros ->. Qed.

Lemma granted_S k answers :
  granted (S k) answers = true ->
  granted 1 answers = true /\ granted k (drop 1 answers) = true.
Proof.
  destruct answers as [|g rest]; simpl.
  - now destruct k.
  - rewrite andb_true_r. intros [-> ?]%andb_true_iff. rewrite drop_0. tauto.
Qed.

Lemma malloc_granted n w :
  granted 1 (allocator w) = true ->
  malloc n w =
    Returns (Some (fresh (dom (heap w))))
      (with_heap (<[fresh (dom (heap w)) := Chars (replicate (N.to_nat n) None)]>
                    (heap w)) (answered w)).
Proof. intros Hg. unfold malloc. now rewrite (next_grant_granted _ Hg). Qed.

Lemma malloc_refused n w rest :
  allocator w = false :: rest ->
  malloc n w = Returns None {| heap := heap w; allocator := rest |}.
Proof. intros Ha. unfold malloc. now rewrite (next_grant_refused _ _ Ha). Qed.

Lemma new_granted v s1 w :
  granted 1 (allocator w) = true ->
  read_view v (answered w) = Some s1 ->
  new_CachedRatio v w =
    Returns (fresh (dom (heap w)))
      (with_heap (<[fresh (dom (heap w)) := Object true v (CachedRatio_new s1)]>
                    (heap w)) (answered w)).
Proof.
  intros Hg Hv. unfold new_CachedRatio.
  now rewrite (next_grant_granted _ Hg), Hv.
Qed.

Lemma new_refused v w rest :
  allocator w = false :: rest ->
  new_CachedRatio v w = Throws {| heap := heap w; allocator := rest |}.
Proof.
  intros Ha. unfold new_CachedRatio. now rewrite (next_grant_refused _ _ Ha).
Qed.

Lemma mapM_id_Some (s : list byte) : mapM id (Some <$> s) = Some s.
Proof.
  induction s as [|c s IH]; [reflexivity|].
  cbn. rewrite IH. reflexivity.
Qed.

(** A view of the characters of a terminated copy reads them back. *)
Lemma read_view_copy w b (r : list byte) :
  heap w !! b = Some (Chars (Some <$> c_str r)) ->
  read_view {| sv_data := b; sv_size := nbytes r |} w = Some r.
Proof.
  intros Hb. unfold read_view. cbn [sv_data sv_size]. rewrite Hb.
  unfold c_str.
  rewrite length_fmap, length_app. simpl length.
  replace (nbytes r <=? N.of_nat (length r + 1))%N with true
    by (symmetry; apply N.leb_le; unfold nbytes; lia).
  unfold nbytes. rewrite Nat2N.id, fmap_app, take_app_length'.
  - apply mapM_id_Some.
  - now rewrite length_fmap.
Qed.

(** The array [malloc], [memcpy] and the terminating store leave behind. *)
Lemma copy_chars (str : list byte) len :
  strlen str = Some len ->
  <[N.to_nat len := Some NUL]>
    ((Some <$> take (N.to_nat len) str)
       ++ drop (N.to_nat len) (replicate (N.to_nat (len + 1)) None))
  = Some <$> c_str (c_chars str).
Proof.
  intros (-> & Htake & _ & _)%strlen_spec.
  rewrite Htake. unfold nbytes, c_str.
  replace (N.to_nat (N.of_nat (length (c_chars str)) + 1))
    with (length (c_chars str) + 1)%nat by lia.
  rewrite Nat2N.id, drop_replicate.
  replace (length (c_chars str) + 1 - length (c_chars str))%nat with 1%nat by lia.
  simpl replicate.
  rewrite fmap_app. simpl fmap at 2.
  rewrite <- (length_fmap Some (c_chars str)) at 1.
  rewrite insert_app_r_alt by lia. now rewrite Nat.sub_diag.
Qed.

(** ** [rapidfuzz_cached_init] *)

(** Both requests granted: the handle is ready for the C string at
    [str], in fresh allocations. *)
Lemma init_granted str len w :
  strlen str = Some len -> (len < SIZE_MAX)%N ->
  granted 2 (allocator w) = true ->
  exists b k,
    (b ∉ dom (heap w)) /\ (k ∉ dom (heap w)) /\ b <> k /\
    rapidfuzz_cached_init str w =
      Returns {| buffer := Some b; buflen := len; block := Some k |}
        {| heap :=
             <[k := Object true {| sv_data := b; sv_size := len |}
                      (CachedRatio_new (c_chars str))]>
               (<[b := Chars (Some <$> c_str (c_chars str))]> (heap w));
           allocator := drop 2 (allocator w) |}.
Proof.
  intros Hlen Hmax [Hg1 Hg2]%granted_S.
  pose proof (strlen_spec _ _ Hlen) as (Hn & Htake & Hlt & _).
  set (b := fresh (dom (heap w))).
  set (chars := Chars (Some <$> c_str (c_chars str))).
  set (k := fresh (dom (<[b := chars]> (heap w)))).
  assert (Hb : b ∉ dom (heap w)) by apply is_fresh.
  assert (Hk : k ∉ dom (<[b := chars]> (heap w))) by apply is_fresh.
  rewrite dom_insert_L in Hk.
  exists b, k. repeat split; [assumption|set_solver|set_solver|].
  unfold rapidfuzz_cached_init. rewrite Hlen.
  cbn [set_buflen set_buffer set_block buflen buffer block rapidfuzz_cached_null].
  rewrite size_add_1 by assumption.
  erewrite bind_returns by (apply malloc_granted; exact Hg1).
  fold b. cbn [buffer].
  (* memcpy *)
  unfold bind at 1, memcpy. cbn [heap with_heap answered].
  rewrite lookup_insert_eq, length_replicate.
  replace ((len <=? N.of_nat (N.to_nat (len + 1))) && (len <=? nbytes str))%N
    with true by (symmetry; apply andb_true_iff; split; apply N.leb_le; lia).
  rewrite insert_insert_eq.
  (* the terminator *)
  unfold bind at 1, store. cbn [heap with_heap].
  rewrite lookup_insert_eq, length_app, length_fmap, length_take, length_drop,
    length_replicate.
  replace (len <? _)%N with true.
  2:{ symmetry. apply N.ltb_lt. unfold nbytes in Hlt. lia. }
  rewrite insert_insert_eq, (copy_chars _ _ Hlen). fold chars.
  (* the object *)
  erewrite bind_returns.
  2:{ apply new_granted; [exact Hg2|].
      rewrite Hn. apply read_view_copy. cbn [heap answered with_heap].
      apply lookup_insert_eq. }
  cbn [heap answered with_heap allocator ret set_block buffer buflen block].
  fold k. rewrite Hn. unfold ret, with_heap, answered.
  cbn [heap allocator]. do 2 f_equal. now rewrite drop_drop.
Qed.

(** The buffer is refused: the null handle, and nothing was allocated. *)
Lemma init_malloc_refused str len w rest :
  strlen str = Some len -> allocator w = false :: rest ->
  rapidfuzz_cached_init str w =
    Returns rapidfuzz_cached_null {| heap := heap w; allocator := rest |}.
Proof.
  intros Hlen Ha. unfold rapidfuzz_cached_init. rewrite Hlen.
  erewrite bind_returns by (apply malloc_refused; exact Ha).
  reflexivity.
Qed.

(** The buffer is granted and the object is refused: [std::bad_alloc]
    leaves the function while the buffer stays allocated. *)
Lemma init_new_refused str len w rest :
  strlen str = Some len -> (len < SIZE_MAX)%N ->
  allocator w = true :: false :: rest ->
  exists b,
    (b ∉ dom (heap w)) /\
    rapidfuzz_cached_init str w =
      Throws {| heap := <[b := Chars (Some <$> c_str (c_chars str))]> (heap w);
                allocator := rest |}.
Proof.
  intros Hlen Hmax Ha.
  pose proof (strlen_spec _ _ Hlen) as (Hn & Htake & Hlt & _).
  set (b := fresh (dom (heap w))).
  exists b. split; [apply is_fresh|].
  unfold rapidfuzz_cached_init. rewrite Hlen.
  cbn [set_buflen set_buffer set_block buflen buffer block rapidfuzz_cached_null].
  rewrite size_add_1 by assumption.
  erewrite bind_returns by (apply malloc_granted; now rewrite Ha).
  fold b. cbn [buffer].
  unfold bind at 1, memcpy. cbn [heap with_heap answered].
  rewrite lookup_insert_eq, length_replicate.
  replace ((len <=? N.of_nat (N.to_nat (len + 1))) && (len <=? nbytes str))%N
    with true by (symmetry; apply andb_true_iff; split; apply N.leb_le; lia).
  rewrite insert_insert_eq.
  unfold bind at 1, store. cbn [heap with_heap].
  rewrite lookup_insert_eq, length_app, length_fmap, length_take, length_drop,
    length_replicate.
  replace (len <? _)%N with true.
  2:{ symmetry. apply N.ltb_lt. unfold nbytes in Hlt. lia. }
  rewrite insert_insert_eq, (copy_chars _ _ Hlen).
  unfold bind. erewrite new_refused; [reflexivity|].
  cbn [allocator with_heap answered]. now rewrite Ha.
Qed.

(** No terminator in the region: the scan runs off it. *)
Lemma init_unterminated str w :
  strlen str = None -> rapidfuzz_cached_init str w = Undefined.
Proof.
  intros Hlen. unfold rapidfuzz_cached_init. now rewrite Hlen.
Qed.

(** Whatever [rapidfuzz_cached_init] returns is the null handle or has
    both pointers set. *)
Lemma init_returns_shape str w h w' :
  rapidfuzz_cached_init str w = Returns h w' ->
  h = rapidfuzz_cached_null \/
  exists b k len, h = {| buffer := Some b; buflen := len; block := Some k |}.
Proof.
  unfold rapidfuzz_cached_init, bind, malloc, memcpy, store, new_CachedRatio,
    ret, undefined.
  intros H. repeat case_match; simplify_eq; eauto.
Qed.

(** ** [rapidfuzz_cached_ratio] *)

Lemma ratio_without_pointer h str len w :
  buffer h = None \/ block h = None ->
  rapidfuzz_cached_ratio h str len w = Returns 1%float w.
Proof.
  unfold rapidfuzz_cached_ratio.
  intros [-> | ->]; [reflexivity|]. now destruct (buffer h).
Qed.

Lemma ratio_ready w h r str len s2 :
  ready_for w h r -> string_view_chars str len = Some s2 ->
  rapidfuzz_cached_ratio h str len w =
    Returns (adapt (CachedRatio_ratio (CachedRatio_new r) r s2)) w.
Proof.
  intros (b & k & -> & Hb & Hk) Hs2.
  unfold rapidfuzz_cached_ratio. cbn [buffer block]. rewrite Hs2.
  unfold bind, call_ratio. rewrite Hk, (read_view_copy _ _ _ Hb).
  reflexivity.
Qed.

(** The world is never changed by scoring. *)
Lemma ratio_world h str len w score w' :
  rapidfuzz_cached_ratio h str len w = Returns score w' -> w' = w.
Proof.
  unfold rapidfuzz_cached_ratio, bind, call_ratio, ret, undefined.
  intros H. repeat case_match; simplify_eq; reflexivity.
Qed.

(** ** [rapidfuzz_cached_deinit] *)

Lemma deinit_null w :
  rapidfuzz_cached_deinit rapidfuzz_cached_null w =
    Returns rapidfuzz_cached_null w.
Proof. reflexivity. Qed.

Lemma deinit_live w h :
  live_handle w h ->
  exists w', rapidfuzz_cached_deinit h w = Returns rapidfuzz_cached_null w'.
Proof.
  destruct h as [[b|] n [k|]]; intros (Hk & Hb & Hn);
    cbn [buffer block buflen] in *;
    unfold rapidfuzz_cached_deinit, bind, destroy_CachedRatio, free, ret;
    fields.
  - destruct (Hk k eq_refl) as (v & st & Hlk).
    destruct (Hb b eq_refl) as (chars & Hlb).
    rewrite Hlk. fields. rewrite lookup_insert_ne by congruence.
    rewrite Hlb. eauto.
  - destruct (Hb b eq_refl) as (chars & Hlb). rewrite Hlb. eauto.
  - destruct (Hk k eq_refl) as (v & st & Hlk). rewrite Hlk. fields.
    rewrite Hn by reflexivity. eauto.
  - rewrite Hn by reflexivity. eauto.
Qed.

(** Destroying a ready handle ends the object's lifetime and frees the
    buffer; the object's storage remains. *)
Lemma deinit_ready w h r :
  ready_for w h r ->
  exists b k,
    buffer h = Some b /\ block h = Some k /\
    rapidfuzz_cached_deinit h w =
      Returns rapidfuzz_cached_null
        {| heap :=
             delete b
               (<[k := Object false {| sv_data := b; sv_size := nbytes r |}
                        (CachedRatio_new r)]> (heap w));
           allocator := allocator w |}.
Proof.
  intros (b & k & -> & Hb & Hk). exists b, k. split; [reflexivity|].
  split; [reflexivity|].
  unfold rapidfuzz_cached_deinit, bind, destroy_CachedRatio, free, ret.
  cbn [buffer block buflen set_block set_buffer set_buflen].
  rewrite Hk.
  cbn [buffer block buflen set_block set_buffer set_buflen heap with_heap].
  rewrite lookup_insert_ne by congruence. rewrite Hb. reflexivity.
Qed.

Lemma ready_live w h r : ready_for w h r -> live_handle w h.
Proof.
  intros (b & k & -> & Hb & Hk). repeat split; cbn [buffer block buflen].
  - intros ? [= <-]. eauto.
  - intros ? [= <-]. eauto.
  - discriminate.
Qed.

(** Whatever [rapidfuzz_cached_deinit] returns has no pointer left. *)
Lemma deinit_returns_pointers h w h' w' :
  rapidfuzz_cached_deinit h w = Returns h' w' ->
  buffer h' = None /\ block h' = None /\
  (buffer h <> None \/ buflen h = 0%N -> buflen h' = 0%N).
Proof.
  unfold rapidfuzz_cached_deinit, bind, destroy_CachedRatio, free, ret.
  intros H. repeat case_match; simplify_eq;
    cbn [buffer block buflen set_block set_buffer set_buflen] in *;
    simplify_eq; repeat split; try tauto; try congruence.
  all: intros [?|?]; congruence.
Qed.

(** Both requests granted: the handle is ready for the C string at [str];
    the two allocations are new and every earlier one is untouched. *)
Lemma init_ready str len w :
  strlen str = Some len -> (len < SIZE_MAX)%N ->
  granted 2 (allocator w) = true ->
  exists h w',
    rapidfuzz_cached_init str w = Returns h w' /\
    ready_for w' h (c_chars str) /\ buflen h = len /\
    (forall a, a ∈ dom (heap w) -> buffer h <> Some a /\ block h <> Some a /\
                                   heap w' !! a = heap w !! a) /\
    allocations w' = S (S (allocations w)) /\
    allocator w' = drop 2 (allocator w).
Proof.
  intros Hlen Hmax Hg.
  destruct (init_granted _ _ _ Hlen Hmax Hg) as (b & k & Hb & Hk & Hbk & Hinit).
  pose proof (strlen_spec _ _ Hlen) as (Hn & _).
  eexists _, _. split; [exact Hinit|].
  split; [|split; [reflexivity|split; [|split; [|reflexivity]]]].
  - exists b, k. rewrite Hn. split; [reflexivity|]. cbn [heap]. split.
    + rewrite lookup_insert_ne by congruence. apply lookup_insert_eq.
    + apply lookup_insert_eq.
  - intros a Ha. cbn [buffer block heap].
    assert (a <> b) by (intros ->; contradiction).
    assert (a <> k) by (intros ->; contradiction).
    repeat split; try congruence.
    now rewrite !lookup_insert_ne by congruence.
  - unfold allocations. cbn [heap].
    rewrite !map_size_insert_None; [reflexivity| |].
    + now apply not_elem_of_dom.
    + rewrite lookup_insert_ne by congruence. now apply not_elem_of_dom.
Qed.

(** ** Whole lives of a handle *)

Lemma granted_add a b answers :
  granted (a + b) answers = true ->
  granted a answers = true /\ granted b (drop a answers) = true.
Proof.
  revert answers. induction a as [|a IH]; intros answers; simpl.
  - rewrite drop_0. tauto.
  - destruct answers as [|g rest]; simpl.
    + intros _. split; [reflexivity|]. now destruct b.
    + intros [-> H]%andb_true_iff. now apply IH.
Qed.

Lemma score_all_ready w h r cands :
  ready_for w h r ->
  score_all h cands w =
    Returns ((fun c => adapt (CachedRatio_ratio (CachedRatio_new r) r c)) <$> cands) w.
Proof.
  intros Hready. induction cands as [|c rest IH]; [reflexivity|].
  cbn [score_all].
  erewrite bind_returns
    by exact (ratio_ready _ _ _ _ _ _ Hready (string_view_chars_whole c)).
  erewrite bind_returns by exact IH. reflexivity.
Qed.

(** One life leaves the heap as it was, plus the storage of the object. *)
Lemma cycle_granted str len w cands :
  strlen str = Some len -> (len < SIZE_MAX)%N ->
  granted 2 (allocator w) = true ->
  exists b k,
    (k ∉ dom (heap w)) /\
    cycle str cands w =
      Returns rapidfuzz_cached_null
        {| heap := <[k := Object false {| sv_data := b; sv_size := len |}
                            (CachedRatio_new (c_chars str))]> (heap w);
           allocator := drop 2 (allocator w) |}.
Proof.
  intros Hlen Hmax Hg.
  destruct (init_granted _ _ _ Hlen Hmax Hg) as (b & k & Hb & Hk & Hbk & Hinit).
  pose proof (strlen_spec _ _ Hlen) as (Hn & _). subst len.
  exists b, k. split; [exact Hk|].
  unfold cycle. erewrite bind_returns by exact Hinit.
  set (w1 := {| heap := _; allocator := drop 2 (allocator w) |}).
  assert (Hready : ready_for w1
            {| buffer := Some b; buflen := nbytes (c_chars str); block := Some k |}
            (c_chars str)).
  { exists b, k. split; [reflexivity|]. subst w1. cbn [heap]. split.
    - rewrite lookup_insert_ne by congruence. apply lookup_insert_eq.
    - apply lookup_insert_eq. }
  erewrite bind_returns by exact (score_all_ready _ _ _ cands Hready).
  destruct (deinit_ready _ _ _ Hready) as (b' & k' & [= <-] & [= <-] & ->).
  subst w1. cbn [heap allocator]. do 2 f_equal.
  rewrite insert_insert_eq, delete_insert_ne by congruence.
  rewrite delete_insert_id; [reflexivity|]. now apply not_elem_of_dom.
Qed.

Lemma memcpy_prefix dst (s1 s2 : list byte) n w :
  take (N.to_nat n) s1 = take (N.to_nat n) s2 ->
  (n <= nbytes s1)%N -> (n <= nbytes s2)%N ->
  memcpy dst s1 n w = memcpy dst s2 n w.
Proof.
  intros Ht H1 H2. unfold memcpy. rewrite Ht.
  apply N.leb_le in H1, H2. now rewrite H1, H2.
Qed.

Lemma string_view_chars_prefix (s junk : list byte) :
  string_view_chars (s ++ junk) (nbytes s) = Some s.
Proof.
  unfold string_view_chars, nbytes. rewrite length_app.
  replace (N.of_nat (length s) <=? N.of_nat (length s + length junk))%N
    with true by (symmetry; apply N.leb_le; lia).
  now rewrite Nat2N.id, take_app_length.
Qed.

(** What a returning [rapidfuzz_cached_deinit] did to the heap. *)
Lemma deinit_effect h w h' w' :
  rapidfuzz_cached_deinit h w = Returns h' w' ->
  allocator w' = allocator w /\
  (forall b, buffer h = Some b -> heap w' !! b = None) /\
  (forall a, buffer h <> Some a -> block h <> Some a ->
             heap w' !! a = heap w !! a).
Proof.
  destruct h as [[b|] n [k|]];
    unfold rapidfuzz_cached_deinit, bind, destroy_CachedRatio, free, ret; fields;
    intros H; repeat case_match; simplify_eq;
    cbn [buffer block buflen set_block set_buffer set_buflen
         heap allocator with_heap answered] in *; simplify_eq.
  - split; [reflexivity|]. split.
    + intros ? [= <-]. apply lookup_delete_eq.
    + intros a Ha Hk. rewrite lookup_delete_ne, lookup_insert_ne; congruence.
  - split; [reflexivity|]. split.
    + intros ? [= <-]. apply lookup_delete_eq.
    + intros a Ha _. rewrite lookup_delete_ne; congruence.
  - split; [reflexivity|]. split; [discriminate|].
    intros a _ Hk. rewrite lookup_insert_ne; congruence.
  - split; [reflexivity|]. split; [discriminate|reflexivity].
Qed.

End BridgeFacts.

(** * The claims *)

Local Open Scope float_scope.

Lemma kitten_init :
  rapidfuzz_cached_init (c_str kitten) empty_world =
    Returns kitten_handle kitten_world.
Proof. vm_compute. reflexivity. Qed.

Lemma kitten_ready : ready_for kitten_world kitten_handle kitten.
Proof.
  exists 1%positive, 2%positive. repeat split; vm_compute; reflexivity.
Qed.

(** C1. For every handle in the empty state (buffer and precomputed block
    both absent) and every candidate, whatever length is passed with it,
    [rapidfuzz_cached_ratio] returns exactly 1.0 and leaves the world as it
    was. *)
Theorem score_of_empty_handle `{RF : RapidFuzz}
    (h : RapidFuzzCachedRatio) (str : list byte) (len : N) (w : world) :
  is_empty h ->
  rapidfuzz_cached_ratio h str len w = Returns 1 w.
Proof.
  intros [Hb _]. apply ratio_without_pointer. now left.
Qed.

Lemma score_of_empty_handle_witness :
  is_empty rapidfuzz_cached_null /\
  rapidfuzz_cached_ratio rapidfuzz_cached_null sitting 7 kitten_world
    = Returns 1 kitten_world.
Proof.
  split; [split; reflexivity|].
  apply (score_of_empty_handle rapidfuzz_cached_null sitting 7 kitten_world).
  split; reflexivity.
Defined.

(** The handle of a failed create and the handle left by destroy score 1.0. *)
Corollary score_after_failed_create `{RF : RapidFuzz} str len w rest h w' cand clen :
  strlen str = Some len -> allocator w = false :: rest ->
  rapidfuzz_cached_init str w = Returns h w' ->
  rapidfuzz_cached_ratio h cand clen w' = Returns 1 w'.
Proof.
  intros Hlen Ha. rewrite (init_malloc_refused _ _ _ _ Hlen Ha).
  intros [= <- <-]. apply ratio_without_pointer. now left.
Qed.

Corollary score_after_destroy `{RF : RapidFuzz} h w h' w' cand clen :
  rapidfuzz_cached_deinit h w = Returns h' w' ->
  rapidfuzz_cached_ratio h' cand clen w' = Returns 1 w'.
Proof.
  intros (Hb & _)%deinit_returns_pointers. apply ratio_without_pointer. now left.
Qed.

(** C2, as the code has it.  For every handle whose non-null pointers are
    live and whose length is 0 when it has no buffer (every handle the
    exported functions hand out is such a handle),
    [rapidfuzz_cached_deinit] returns and leaves buffer absent, block
    absent and buflen 0; destroying the result again changes neither the
    handle nor the world.  The length is reset only together with a
    buffer that was present. *)
Theorem deinit_leaves_empty `{RF : RapidFuzz} (w : world) (h : RapidFuzzCachedRatio) :
  live_handle w h ->
  exists h' w',
    rapidfuzz_cached_deinit h w = Returns h' w' /\
    buffer h' = None /\ block h' = None /\ buflen h' = 0%N /\
    rapidfuzz_cached_deinit h' w' = Returns h' w'.
Proof.
  intros (w' & Hd)%deinit_live.
  exists rapidfuzz_cached_null, w'.
  split; [exact Hd|]. repeat (split; [reflexivity|]). apply deinit_null.
Qed.

Lemma deinit_leaves_empty_witness :
  live_handle kitten_world kitten_handle /\
  exists h' w',
    rapidfuzz_cached_deinit kitten_handle kitten_world = Returns h' w' /\
    buffer h' = None /\ block h' = None /\ buflen h' = 0%N /\
    rapidfuzz_cached_deinit h' w' = Returns h' w'.
Proof.
  split; [exact (ready_live _ _ _ kitten_ready)|].
  apply (deinit_leaves_empty kitten_world kitten_handle).
  exact (ready_live _ _ _ kitten_ready).
Defined.

(** C2 as stated fails: a handle in the empty state that carries the
    length 5 is returned by [rapidfuzz_cached_deinit] with that length,
    not with 0. *)
Lemma deinit_keeps_stray_length_counterexample :
  is_empty stray_handle /\
  ~ (forall h' w',
       rapidfuzz_cached_deinit stray_handle empty_world = Returns h' w' ->
       buflen h' = 0%N).
Proof.
  split; [split; reflexivity|].
  intros H. specialize (H stray_handle empty_world eq_refl). discriminate H.
Qed.

(** C3. One create / score / destroy cycle on "kitten": the buffer is
    freed once, and the storage [new CachedRatio] obtained is still
    allocated afterwards, holding an object whose lifetime has ended.  The
    destructor is called on it but the storage is never given back. *)
Theorem cycle_keeps_object_storage :
  exists score w'',
    rapidfuzz_cached_init (c_str kitten) empty_world
      = Returns kitten_handle kitten_world /\
    rapidfuzz_cached_ratio kitten_handle sitting 7 kitten_world
      = Returns score kitten_world /\
    rapidfuzz_cached_deinit kitten_handle kitten_world
      = Returns rapidfuzz_cached_null w'' /\
    heap w'' !! 1%positive = None /\
    heap w'' !! 2%positive =
      Some (Object false {| sv_data := 1%positive; sv_size := 6%N |} kitten) /\
    allocations empty_world = 0%nat /\ allocations w'' = 1%nat.
Proof.
  eexists _, _. repeat split; vm_compute; reflexivity.
Qed.

(** C4. A handle created from the C string at [str] scores a candidate as
    [1 - p / 100], where [p] is the library's ratio of the reference
    characters against the candidate; when [p] lies in [0, 100] the score
    lies in [0, 1]; and when the library rates the reference against itself
    at 100, the score of the reference is exactly 0. *)
Theorem score_of_ready_handle `{RF : RapidFuzz}
    (str : list byte) (len : N) (w : world) (cand : list byte) (clen : N)
    (s2 : list byte) :
  strlen str = Some len -> (len < SIZE_MAX)%N ->
  granted 2 (allocator w) = true ->
  string_view_chars cand clen = Some s2 ->
  let r := c_chars str in
  let p := CachedRatio_ratio (CachedRatio_new r) r s2 in
  exists h w',
    rapidfuzz_cached_init str w = Returns h w' /\
    rapidfuzz_cached_ratio h cand clen w' = Returns (1 - p / 100) w' /\
    ((0 <=? p) = true -> (p <=? 100) = true ->
     (0 <=? 1 - p / 100) = true /\ (1 - p / 100 <=? 1) = true) /\
    (CachedRatio_ratio (CachedRatio_new r) r r = 100 ->
     rapidfuzz_cached_ratio h r (nbytes r) w' = Returns 0 w').
Proof.
  intros Hlen Hmax Hg Hs2 r p.
  destruct (init_ready _ _ _ Hlen Hmax Hg) as (h & w' & Hinit & Hready & _).
  exists h, w'. split; [exact Hinit|]. split; [|split].
  - exact (ratio_ready _ _ _ _ _ _ Hready Hs2).
  - apply adapted_percentage_unit.
  - intros Hself.
    rewrite (ratio_ready _ _ _ _ _ _ Hready (string_view_chars_whole _)).
    fold r. rewrite Hself. reflexivity.
Qed.

Lemma score_of_ready_handle_witness :
  exists h w',
    rapidfuzz_cached_init (c_str kitten) empty_world = Returns h w' /\
    rapidfuzz_cached_ratio h sitting 7 w' = Returns 0x1.89d89d89d89d8p-2 w' /\
    rapidfuzz_cached_ratio h kitten 6 w' = Returns 0 w'.
Proof.
  destruct (score_of_ready_handle (RF := textbook) (c_str kitten) 6 empty_world
              sitting 7 sitting)
    as (h & w' & Hinit & Hscore & _ & Hself);
    [reflexivity|reflexivity|reflexivity|reflexivity|].
  exists h, w'. split; [exact Hinit|]. split; [exact Hscore|].
  apply Hself. vm_compute. reflexivity.
Defined.

(** C5. With the buffer granted and the object refused,
    [rapidfuzz_cached_init] does not return the null handle:
    [std::bad_alloc] leaves the function, and the buffer it copied "kitten"
    into stays allocated. *)
Theorem init_throws_when_object_refused :
  rapidfuzz_cached_init (c_str kitten) tight_world =
    Throws {| heap := {[ 1%positive := Chars (Some <$> c_str kitten) ]};
              allocator := [] |}.
Proof. vm_compute. reflexivity. Qed.

(** C6, as the code has it.  For every byte sequence handed over as a C
    string, when both requests are granted, [rapidfuzz_cached_init] returns
    a handle whose buffer is a new terminated copy of the bytes before the
    first zero byte, whose length is the number of those bytes (found by
    scanning for the terminator), and whose block is an object built from a
    view of that copy; earlier allocations are untouched.  When the sequence
    holds no zero byte these are all its bytes. *)
Theorem init_copies_c_string `{RF : RapidFuzz} (r : list byte) (w : world) :
  (nbytes r < SIZE_MAX)%N -> granted 2 (allocator w) = true ->
  exists b k w',
    rapidfuzz_cached_init (c_str r) w =
      Returns {| buffer := Some b; buflen := nbytes (c_chars r);
                 block := Some k |} w' /\
    (b ∉ dom (heap w)) /\ (k ∉ dom (heap w)) /\
    heap w' !! b = Some (Chars (Some <$> c_str (c_chars r))) /\
    heap w' !! k =
      Some (Object true {| sv_data := b; sv_size := nbytes (c_chars r) |}
              (CachedRatio_new (c_chars r))) /\
    (forall a, a ∈ dom (heap w) -> heap w' !! a = heap w !! a) /\
    (Forall (fun c => c <> NUL) r -> c_chars r = r).
Proof.
  intros Hmax Hg.
  assert (Hlen : strlen (c_str r) = Some (nbytes (c_chars r)))
    by apply strlen_app_NUL.
  assert (Hcc : c_chars (c_str r) = c_chars r) by apply c_chars_app_NUL.
  assert (Hmax' : (nbytes (c_chars r) < SIZE_MAX)%N).
  { pose proof (c_chars_length_le r). unfold nbytes in *. lia. }
  destruct (init_granted _ _ _ Hlen Hmax' Hg) as (b & k & Hb & Hk & Hbk & Hinit).
  rewrite Hcc in Hinit.
  eexists b, k, _. split; [exact Hinit|]. cbn [heap].
  split; [exact Hb|]. split; [exact Hk|]. split; [|split; [|split]].
  - rewrite lookup_insert_ne by congruence. apply lookup_insert_eq.
  - apply lookup_insert_eq.
  - intros a Ha.
    assert (a <> b) by (intros ->; contradiction).
    assert (a <> k) by (intros ->; contradiction).
    now rewrite !lookup_insert_ne by congruence.
  - apply c_chars_nul_free.
Qed.

Lemma init_copies_c_string_witness :
  exists b k w',
    rapidfuzz_cached_init (c_str a_NUL_b) empty_world =
      Returns {| buffer := Some b; buflen := 1%N; block := Some k |} w' /\
    heap w' !! b = Some (Chars [Some Byte.x61; Some NUL]).
Proof.
  destruct (init_copies_c_string (RF := textbook) a_NUL_b empty_world)
    as (b & k & w' & Hinit & _ & _ & Hb & _); [reflexivity|reflexivity|].
  exists b, k, w'. split; [exact Hinit|exact Hb].
Defined.

(** C6 as stated fails: for the caller's three bytes 'a', 0, 'b' the handle's
    length is not the caller's length. *)
Lemma buflen_of_embedded_zero_counterexample :
  ~ (forall h w',
       rapidfuzz_cached_init (c_str a_NUL_b) empty_world = Returns h w' ->
       buflen h = nbytes a_NUL_b).
Proof.
  intros H.
  specialize (H {| buffer := Some 1%positive; buflen := 1%N;
                   block := Some 2%positive |} _ eq_refl).
  discriminate H.
Qed.

(** C7. [rapidfuzz_levenshtein] returns [1 - p / 100] for the library's
    normalized Levenshtein percentage [p] of the two sequences; for [p] in
    [0, 100] the result lies in [0, 1]; it is 0 for two empty sequences
    when the library rates them at 100, and 1 (above 0, at most 1) for an
    empty against a non-empty sequence when the library rates them at 0. *)
Theorem levenshtein_adapts_percentage `{RF : RapidFuzz} (a b : list byte) :
  let p := normalized_levenshtein a b in
  rapidfuzz_levenshtein a (nbytes a) b (nbytes b) = Some (1 - p / 100) /\
  ((0 <=? p) = true -> (p <=? 100) = true ->
   (0 <=? 1 - p / 100) = true /\ (1 - p / 100 <=? 1) = true) /\
  (normalized_levenshtein [] [] = 100 ->
   rapidfuzz_levenshtein [] 0 [] 0 = Some 0) /\
  (b <> [] -> normalized_levenshtein [] b = 0 ->
   exists d, rapidfuzz_levenshtein [] 0 b (nbytes b) = Some d /\
             d = 1 /\ (0 <? d) = true /\ (d <=? 1) = true).
Proof.
  intros p. split; [|split; [|split]].
  - unfold rapidfuzz_levenshtein. now rewrite !string_view_chars_whole.
  - apply adapted_percentage_unit.
  - intros H. unfold rapidfuzz_levenshtein.
    change (string_view_chars [] 0) with (Some (@nil byte)).
    cbv iota. now rewrite H.
  - intros _ H. exists 1. unfold rapidfuzz_levenshtein.
    change (string_view_chars [] 0) with (Some (@nil byte)).
    rewrite string_view_chars_whole, H. now vm_compute.
Qed.

Lemma levenshtein_adapts_percentage_witness :
  rapidfuzz_levenshtein (RF := textbook) kitten 6 sitting 7
    = Some 0x1.b6db6db6db6dap-2 /\
  rapidfuzz_levenshtein (RF := textbook) [] 0 [] 0 = Some 0 /\
  rapidfuzz_levenshtein (RF := textbook) [] 0 sitting 7 = Some 1.
Proof.
  destruct (levenshtein_adapts_percentage (RF := textbook) kitten sitting)
    as (Hval & _ & Hnil & _).
  destruct (levenshtein_adapts_percentage (RF := textbook) [] sitting)
    as (_ & _ & _ & Hone).
  split; [exact Hval|]. split; [apply Hnil; reflexivity|].
  destruct Hone as (d & Hd & -> & _); [discriminate|reflexivity|exact Hd].
Defined.

(** C8. [rapidfuzz_levenshtein] of a sequence against itself is 0 when the
    library rates it at 100; it is symmetric wherever the library's
    percentage is; and it lies in [0, 1] wherever the percentage lies in
    [0, 100]. *)
Theorem levenshtein_relations `{RF : RapidFuzz} (a b s : list byte) :
  (normalized_levenshtein s s = 100 ->
   rapidfuzz_levenshtein s (nbytes s) s (nbytes s) = Some 0) /\
  (normalized_levenshtein a b = normalized_levenshtein b a ->
   rapidfuzz_levenshtein a (nbytes a) b (nbytes b)
     = rapidfuzz_levenshtein b (nbytes b) a (nbytes a)) /\
  ((0 <=? normalized_levenshtein a b) = true ->
   (normalized_levenshtein a b <=? 100) = true ->
   exists d, rapidfuzz_levenshtein a (nbytes a) b (nbytes b) = Some d /\
             (0 <=? d) = true /\ (d <=? 1) = true).
Proof.
  unfold rapidfuzz_levenshtein. rewrite !string_view_chars_whole.
  split; [|split].
  - now intros ->.
  - now intros ->.
  - intros H0 H100. eexists. split; [reflexivity|].
    now apply adapted_percentage_unit.
Qed.

Lemma levenshtein_relations_witness :
  rapidfuzz_levenshtein (RF := textbook) kitten 6 kitten 6 = Some 0 /\
  rapidfuzz_levenshtein (RF := textbook) kitten 6 sitting 7
    = rapidfuzz_levenshtein (RF := textbook) sitting 7 kitten 6 /\
  exists d, rapidfuzz_levenshtein (RF := textbook) kitten 6 sitting 7 = Some d /\
            (0 <=? d) = true /\ (d <=? 1) = true.
Proof.
  destruct (levenshtein_relations (RF := textbook) kitten sitting kitten)
    as (Hself & Hsym & Hrange).
  split; [apply Hself; reflexivity|].
  split; [apply Hsym; reflexivity|].
  apply Hrange; reflexivity.
Defined.

(** C9. In every handle the exported functions hand out (the null handle,
    a result of [rapidfuzz_cached_init], a handle after
    [rapidfuzz_cached_deinit]) the buffer is null exactly when the block is
    null, and the length is 0 whenever the buffer is null. *)
Theorem produced_handle_coupled `{RF : RapidFuzz} (h : RapidFuzzCachedRatio) :
  produced h ->
  (buffer h = None <-> block h = None) /\ (buffer h = None -> buflen h = 0%N).
Proof.
  induction 1 as [|str w h w' Hinit|h w h' w' _ IH Hd].
  - split; [split|]; reflexivity.
  - destruct (init_returns_shape _ _ _ _ Hinit) as [->|(b & k & len & ->)].
    + split; [split|]; reflexivity.
    + split; [split|]; discriminate.
  - destruct (deinit_returns_pointers _ _ _ _ Hd) as (Hb & Hk & Hn).
    split; [split; intros _; assumption|]. intros _. apply Hn.
    destruct (buffer h) eqn:E; [left; discriminate|right].
    now apply IH.
Qed.

Lemma produced_handle_coupled_witness :
  produced (RF := textbook) kitten_handle /\
  (buffer kitten_handle = None <-> block kitten_handle = None) /\
  (buffer kitten_handle = None -> buflen kitten_handle = 0%N).
Proof.
  split; [exact (produced_init _ _ _ _ kitten_init)|].
  apply (produced_handle_coupled (RF := textbook) kitten_handle).
  exact (produced_init _ _ _ _ kitten_init).
Defined.

(** C10. Creating a handle from the empty C string, both requests
    granted, gives a handle with both pointers set and length 0, which is
    not the null handle; scoring a candidate against it asks the library
    (with the empty reference) instead of answering the fixed 1.0. *)
Theorem init_of_empty_string `{RF : RapidFuzz}
    (rest : list byte) (w : world) (cand : list byte) (clen : N) (s2 : list byte) :
  granted 2 (allocator w) = true ->
  string_view_chars cand clen = Some s2 ->
  exists b k w',
    let h := {| buffer := Some b; buflen := 0%N; block := Some k |} in
    rapidfuzz_cached_init (NUL :: rest) w = Returns h w' /\
    h <> rapidfuzz_cached_null /\
    ready_for w' h [] /\
    rapidfuzz_cached_ratio h cand clen w'
      = Returns (1 - CachedRatio_ratio (CachedRatio_new []) [] s2 / 100) w'.
Proof.
  intros Hg Hs2.
  destruct (init_ready (NUL :: rest) 0%N w eq_refl eq_refl Hg)
    as (h & w' & Hinit & Hready & _).
  change (c_chars (NUL :: rest)) with (@nil byte) in Hready.
  pose proof Hready as (b & k & -> & _).
  exists b, k, w'. cbn zeta. split; [exact Hinit|]. split; [discriminate|].
  split; [exact Hready|].
  exact (ratio_ready _ _ _ _ _ _ Hready Hs2).
Qed.

Lemma init_of_empty_string_witness :
  exists b k w',
    rapidfuzz_cached_init [NUL] empty_world =
      Returns {| buffer := Some b; buflen := 0%N; block := Some k |} w' /\
    rapidfuzz_cached_ratio {| buffer := Some b; buflen := 0%N; block := Some k |}
        [] 0 w' = Returns 0 w' /\
    rapidfuzz_cached_ratio {| buffer := Some b; buflen := 0%N; block := Some k |}
        kitten 6 w' = Returns 1 w'.
Proof.
  destruct (init_of_empty_string (RF := textbook) [] empty_world [] 0 [])
    as (b & k & w' & Hinit & _ & Hready & Hscore); [reflexivity|reflexivity|].
  exists b, k, w'. split; [exact Hinit|]. split; [exact Hscore|].
  exact (ratio_ready _ _ _ kitten 6%N kitten Hready eq_refl).
Defined.

(** * Further properties of the bridge *)

(** X1. When the buffer is refused, [rapidfuzz_cached_init] returns the
    null handle and allocates nothing, whatever C string it was given. *)
Theorem init_refused_returns_null `{RF : RapidFuzz}
    (str : list byte) (len : N) (w : world) (rest : list bool) :
  strlen str = Some len -> allocator w = false :: rest ->
  rapidfuzz_cached_init str w =
    Returns rapidfuzz_cached_null {| heap := heap w; allocator := rest |}.
Proof. apply init_malloc_refused. Qed.

Lemma init_refused_returns_null_witness :
  rapidfuzz_cached_init (c_str kitten) exhausted_world =
    Returns rapidfuzz_cached_null {| heap := ∅; allocator := [] |}.
Proof.
  apply (init_refused_returns_null (RF := textbook) (c_str kitten) 6
           exhausted_world []); reflexivity.
Defined.

(** X2. When the buffer is granted and the object refused,
    [rapidfuzz_cached_init] ends with [std::bad_alloc] and the copied
    buffer is left allocated: one allocation more than before. *)
Theorem init_object_refused_leaks_buffer `{RF : RapidFuzz}
    (str : list byte) (len : N) (w : world) (rest : list bool) :
  strlen str = Some len -> (len < SIZE_MAX)%N ->
  allocator w = true :: false :: rest ->
  exists b w',
    rapidfuzz_cached_init str w = Throws w' /\
    (b ∉ dom (heap w)) /\
    heap w' = <[b := Chars (Some <$> c_str (c_chars str))]> (heap w) /\
    allocations w' = S (allocations w).
Proof.
  intros Hlen Hmax Ha.
  destruct (init_new_refused _ _ _ _ Hlen Hmax Ha) as (b & Hb & Hinit).
  eexists b, _. split; [exact Hinit|]. split; [exact Hb|].
  split; [reflexivity|]. unfold allocations. cbn [heap].
  apply map_size_insert_None. now apply not_elem_of_dom.
Qed.

Lemma init_object_refused_leaks_buffer_witness :
  exists b w',
    rapidfuzz_cached_init (c_str kitten) tight_world = Throws w' /\
    heap w' !! b = Some (Chars (Some <$> c_str kitten)) /\
    allocations w' = 1%nat.
Proof.
  destruct (init_object_refused_leaks_buffer (RF := textbook) (c_str kitten) 6
              tight_world [])
    as (b & w' & Hinit & _ & Hheap & Hn);
    [reflexivity|reflexivity|reflexivity|].
  exists b, w'. split; [exact Hinit|]. split; [|exact Hn].
  rewrite Hheap. apply lookup_insert_eq.
Defined.

(** X3. One create / score / destroy life of a handle, with both requests
    granted, returns the null handle and leaves every earlier allocation
    as it was, but leaves one allocation more than before: the storage of
    the destroyed object, at an address that was free. *)
Theorem cycle_leaks_object_storage `{RF : RapidFuzz}
    (str : list byte) (len : N) (w : world) (cands : list (list byte)) :
  strlen str = Some len -> (len < SIZE_MAX)%N ->
  granted 2 (allocator w) = true ->
  exists w' k v st,
    cycle str cands w = Returns rapidfuzz_cached_null w' /\
    (k ∉ dom (heap w)) /\
    heap w' !! k = Some (Object false v st) /\
    (forall a, a ∈ dom (heap w) -> heap w' !! a = heap w !! a) /\
    allocations w' = S (allocations w).
Proof.
  intros Hlen Hmax Hg.
  destruct (cycle_granted _ _ _ cands Hlen Hmax Hg) as (b & k & Hk & Hc).
  eexists _, k, _, _. split; [exact Hc|]. split; [exact Hk|]. cbn [heap].
  split; [apply lookup_insert_eq|]. split.
  - intros a Ha. apply lookup_insert_ne. intros ->. contradiction.
  - unfold allocations. cbn [heap].
    apply map_size_insert_None. now apply not_elem_of_dom.
Qed.

Lemma cycle_leaks_object_storage_witness :
  exists w',
    cycle (c_str kitten) [sitting; kitten] empty_world
      = Returns rapidfuzz_cached_null w' /\
    allocations w' = 1%nat.
Proof.
  destruct (cycle_leaks_object_storage (RF := textbook) (c_str kitten) 6
              empty_world [sitting; kitten])
    as (w' & k & v & st & Hc & _ & _ & _ & Hn);
    [reflexivity|reflexivity|reflexivity|].
  exists w'. split; [exact Hc|exact Hn].
Defined.

(** X4. [n] lives in a row, every request granted, leave exactly [n]
    allocations more than before. *)
Theorem cycles_leak_linearly `{RF : RapidFuzz}
    (n : nat) (str : list byte) (len : N) (cands : list (list byte)) (w : world) :
  strlen str = Some len -> (len < SIZE_MAX)%N ->
  granted (2 * n) (allocator w) = true ->
  exists w',
    cycles n str cands w = Returns tt w' /\
    allocations w' = (allocations w + n)%nat.
Proof.
  intros Hlen Hmax. revert w. induction n as [|n IH]; intros w Hg.
  - exists w. split; [reflexivity|lia].
  - replace (2 * S n)%nat with (2 + 2 * n)%nat in Hg by lia.
    apply granted_add in Hg as [Hg2 Hrest].
    destruct (cycle_granted _ _ _ cands Hlen Hmax Hg2) as (b & k & Hk & Hc).
    cbn [cycles]. erewrite bind_returns by exact Hc.
    match goal with |- context [cycles n str cands ?w1] =>
      destruct (IH w1 Hrest) as (w' & Hcs & Hn) end.
    exists w'. split; [exact Hcs|]. rewrite Hn. unfold allocations. cbn [heap].
    rewrite map_size_insert_None by now apply not_elem_of_dom. lia.
Qed.

Lemma cycles_leak_linearly_witness :
  exists w',
    cycles 3 (c_str kitten) [sitting] empty_world = Returns tt w' /\
    allocations w' = 3%nat.
Proof.
  apply (cycles_leak_linearly (RF := textbook) 3 (c_str kitten) 6 [sitting]
           empty_world); reflexivity.
Defined.

(** X5. After a ready handle has been destroyed, a copy of it taken
    before is unusable: scoring through the copy and destroying it again
    are both undefined behaviour, not the 1.0 of the empty handle. *)
Theorem stale_copy_is_undefined `{RF : RapidFuzz}
    (w : world) (h : RapidFuzzCachedRatio) (r : list byte)
    (h' : RapidFuzzCachedRatio) (w' : world)
    (cand : list byte) (clen : N) (s2 : list byte) :
  ready_for w h r ->
  rapidfuzz_cached_deinit h w = Returns h' w' ->
  string_view_chars cand clen = Some s2 ->
  rapidfuzz_cached_ratio h cand clen w' = Undefined /\
  rapidfuzz_cached_deinit h w' = Undefined.
Proof.
  intros Hready Hd Hs2.
  destruct (deinit_ready _ _ _ Hready) as (b & k & Hb & Hk & Hd').
  rewrite Hd' in Hd. injection Hd as <- <-.
  destruct Hready as (b' & k' & -> & Hlb & Hlk).
  cbn [buffer block] in Hb, Hk. injection Hb as ->. injection Hk as ->.
  assert (Hdead : forall hp al,
            heap {| heap := delete b (<[k := Object false
                       {| sv_data := b; sv_size := nbytes r |}
                       (CachedRatio_new r)]> hp); allocator := al |} !! k
            = Some (Object false {| sv_data := b; sv_size := nbytes r |}
                      (CachedRatio_new r))).
  { intros hp al. cbn [heap].
    rewrite lookup_delete_ne by congruence. apply lookup_insert_eq. }
  split.
  - unfold rapidfuzz_cached_ratio. cbn [buffer block]. rewrite Hs2.
    unfold bind, call_ratio. now rewrite Hdead.
  - unfold rapidfuzz_cached_deinit, bind, destroy_CachedRatio. cbn [buffer block].
    now rewrite Hdead.
Qed.

Lemma stale_copy_is_undefined_witness :
  rapidfuzz_cached_ratio kitten_handle sitting 7
    {| heap := {[ 2%positive :=
                    Object false {| sv_data := 1%positive; sv_size := 6%N |}
                      kitten ]};
       allocator := [] |} = Undefined.
Proof.
  refine (proj1 (stale_copy_is_undefined (RF := textbook) kitten_world
                   kitten_handle kitten rapidfuzz_cached_null _ sitting 7 sitting
                   kitten_ready _ eq_refl)).
  vm_compute. reflexivity.
Defined.

(** X6. Two handles do not share state: after creating one handle from
    [str1] and another from [str2], destroying the first leaves the second
    scoring exactly as before, against the characters of [str2]. *)
Theorem handles_are_independent `{RF : RapidFuzz}
    (str1 str2 : list byte) (len1 len2 : N) (w : world)
    (cand : list byte) (clen : N) (s2 : list byte) :
  strlen str1 = Some len1 -> (len1 < SIZE_MAX)%N ->
  strlen str2 = Some len2 -> (len2 < SIZE_MAX)%N ->
  granted 4 (allocator w) = true ->
  string_view_chars cand clen = Some s2 ->
  exists h1 w1 h2 w2 w3,
    rapidfuzz_cached_init str1 w = Returns h1 w1 /\
    rapidfuzz_cached_init str2 w1 = Returns h2 w2 /\
    rapidfuzz_cached_deinit h1 w2 = Returns rapidfuzz_cached_null w3 /\
    rapidfuzz_cached_ratio h2 cand clen w3 =
      Returns (adapt (CachedRatio_ratio (CachedRatio_new (c_chars str2))
                        (c_chars str2) s2)) w3.
Proof.
  intros Hl1 Hm1 Hl2 Hm2 Hg Hs2.
  apply (granted_add 2 2) in Hg as [Hg1 Hg2].
  destruct (init_ready _ _ _ Hl1 Hm1 Hg1)
    as (h1 & w1 & Hi1 & Hr1 & _ & _ & _ & Hal1).
  rewrite <- Hal1 in Hg2.
  destruct (init_ready _ _ _ Hl2 Hm2 Hg2)
    as (h2 & w2 & Hi2 & Hr2 & _ & Hframe & _ & _).
  destruct Hr1 as (b1 & k1 & -> & Hb1 & Hk1).
  assert (Hdb1 : b1 ∈ dom (heap w1)) by (apply elem_of_dom; eauto).
  assert (Hdk1 : k1 ∈ dom (heap w1)) by (apply elem_of_dom; eauto).
  destruct (Hframe b1 Hdb1) as (Hbb & Hkb & Hfb).
  destruct (Hframe k1 Hdk1) as (Hbk & Hkk & Hfk).
  assert (Hr1' : ready_for w2
            {| buffer := Some b1; buflen := nbytes (c_chars str1);
               block := Some k1 |} (c_chars str1)).
  { exists b1, k1. split; [reflexivity|]. split; congruence. }
  destruct (deinit_ready _ _ _ Hr1') as (b & k & [= <-] & [= <-] & Hd).
  eexists _, w1, h2, w2, _. split; [exact Hi1|]. split; [exact Hi2|].
  split; [exact Hd|].
  apply ratio_ready; [|exact Hs2].
  destruct Hr2 as (b2 & k2 & -> & Hb2 & Hk2). cbn [buffer block] in *.
  exists b2, k2. split; [reflexivity|]. cbn [heap]. split.
  - rewrite lookup_delete_ne, lookup_insert_ne by congruence. exact Hb2.
  - rewrite lookup_delete_ne, lookup_insert_ne by congruence. exact Hk2.
Qed.

Lemma handles_are_independent_witness :
  exists h1 w1 h2 w2 w3,
    rapidfuzz_cached_init (c_str kitten) empty_world = Returns h1 w1 /\
    rapidfuzz_cached_init (c_str sitting) w1 = Returns h2 w2 /\
    rapidfuzz_cached_deinit h1 w2 = Returns rapidfuzz_cached_null w3 /\
    rapidfuzz_cached_ratio h2 sitting 7 w3 = Returns 0 w3.
Proof.
  apply (handles_are_independent (RF := textbook) (c_str kitten) (c_str sitting)
           6 7 empty_world sitting 7 sitting); reflexivity.
Defined.

(** X7. [rapidfuzz_cached_init] reads the reference only up to its first
    terminator: whatever follows it in memory does not change the
    outcome, in any world. *)
Theorem init_reads_to_terminator `{RF : RapidFuzz}
    (r rest1 rest2 : list byte) (w : world) :
  rapidfuzz_cached_init (r ++ NUL :: rest1) w =
  rapidfuzz_cached_init (r ++ NUL :: rest2) w.
Proof.
  unfold rapidfuzz_cached_init. rewrite !strlen_app_NUL.
  cbn [set_buflen set_buffer buflen buffer block rapidfuzz_cached_null].
  unfold bind at 1 5.
  destruct (malloc _ w) as [[b|] w1| |]; try reflexivity.
  cbn [set_buflen set_buffer buflen buffer block rapidfuzz_cached_null].
  unfold bind at 1 4.
  pose proof (strlen_spec _ _ (strlen_app_NUL r rest1)) as (_ & Ht1 & Hlt1 & _).
  pose proof (strlen_spec _ _ (strlen_app_NUL r rest2)) as (_ & Ht2 & Hlt2 & _).
  rewrite (memcpy_prefix b (r ++ NUL :: rest1) (r ++ NUL :: rest2)); try lia.
  - reflexivity.
  - rewrite Ht1, Ht2, !c_chars_app_NUL. reflexivity.
Qed.

(** X8. The candidate of [rapidfuzz_cached_ratio] is delimited by its
    length alone: bytes after the first [len] are never read, so a
    candidate needs no terminator. *)
Theorem ratio_reads_len_bytes `{RF : RapidFuzz}
    (h : RapidFuzzCachedRatio) (s2 junk : list byte) (w : world) :
  rapidfuzz_cached_ratio h (s2 ++ junk) (nbytes s2) w =
  rapidfuzz_cached_ratio h s2 (nbytes s2) w.
Proof.
  unfold rapidfuzz_cached_ratio.
  now rewrite string_view_chars_prefix, string_view_chars_whole.
Qed.

(** X9. Both arguments of [rapidfuzz_levenshtein] are delimited by their
    lengths alone, and the result is the adapted percentage of exactly
    those bytes, zero bytes included. *)
Theorem levenshtein_reads_len_bytes `{RF : RapidFuzz}
    (a ja b jb : list byte) :
  rapidfuzz_levenshtein (a ++ ja) (nbytes a) (b ++ jb) (nbytes b) =
    Some (adapt (normalized_levenshtein a b)).
Proof.
  unfold rapidfuzz_levenshtein. now rewrite !string_view_chars_prefix.
Qed.

(** X10. Whenever [rapidfuzz_cached_deinit] returns, it has left the
    allocator's answers and every allocation other than the handle's
    buffer and block as they were, and the buffer is no longer allocated. *)
Theorem deinit_touches_only_its_own `{RF : RapidFuzz}
    (h : RapidFuzzCachedRatio) (w : world) (h' : RapidFuzzCachedRatio) (w' : world) :
  rapidfuzz_cached_deinit h w = Returns h' w' ->
  allocator w' = allocator w /\
  (forall b, buffer h = Some b -> heap w' !! b = None) /\
  (forall a, buffer h <> Some a -> block h <> Some a ->
             heap w' !! a = heap w !! a).
Proof. apply deinit_effect. Qed.

Lemma deinit_touches_only_its_own_witness :
  exists w',
    rapidfuzz_cached_deinit kitten_handle kitten_world
      = Returns rapidfuzz_cached_null w' /\
    heap w' !! 1%positive = None.
Proof.
  assert (Hd : rapidfuzz_cached_deinit kitten_handle kitten_world =
                 Returns rapidfuzz_cached_null
                   {| heap := {[ 2%positive :=
                                   Object false
                                     {| sv_data := 1%positive; sv_size := 6%N |}
                                     kitten ]};
                      allocator := [] |})
    by (vm_compute; reflexivity).
  eexists. split; [exact Hd|].
  exact (proj1 (proj2 (deinit_touches_only_its_own (RF := textbook) _ _ _ _ Hd))
           1%positive eq_refl).
Defined.

(** X11. Scoring never changes the world: whenever
    [rapidfuzz_cached_ratio] returns, for any handle at all, the heap and
    the allocator are as before, and scoring again returns the same score. *)
Theorem ratio_leaves_world `{RF : RapidFuzz}
    (h : RapidFuzzCachedRatio) (str : list byte) (len : N) (w : world)
    (score : float) (w' : world) :
  rapidfuzz_cached_ratio h str len w = Returns score w' ->
  w' = w /\ rapidfuzz_cached_ratio h str len w' = Returns score w'.
Proof.
  intros H. pose proof (ratio_world _ _ _ _ _ _ H) as ->. now split.
Qed.

Lemma ratio_leaves_world_witness :
  rapidfuzz_cached_ratio kitten_handle sitting 7 kitten_world
    = Returns 0x1.89d89d89d89d8p-2 kitten_world.
Proof.
  refine (proj2 (ratio_leaves_world (RF := textbook) kitten_handle sitting 7
                   kitten_world _ kitten_world _)).
  vm_compute. reflexivity.
Defined.
